(** * A shallow embedding of cvec2 (src/cvec2.c, src/cvec2.h)

    The vector is modelled at element granularity: the allocation is a list of
    element slots, each slot holding one opaque element (the [el_size] bytes the
    C code copies with memcpy/memmove).  [size_t] values are [Z] in
    [0, 2^64), with the C wrap-around written out as [mod WORD]; the
    [unsigned int] growth counter of [_vec2_create_hole] is a [Z] in
    [0, 2^32).  Pointers are byte addresses, [0] being [NULL]. *)

From Stdlib Require Import ZArith Lia List Bool.
Import ListNotations.
Open Scope Z_scope.

(** size_t and unsigned int moduli, and the library's constants. *)
Definition WORD : Z := 2 ^ 64.
Definition UINT : Z := 2 ^ 32.
Definition VEC2_INITIAL_CAPACITY : Z := 8.

(** Upper bound on loop iterations in the model of [_vec2_create_hole].  Both
    loops run over an [unsigned int], and exit within 40 iterations whenever
    they exit at all (see the comments on [grow_loop] and [reserve_loop]). *)
Definition LOOP_FUEL : nat := 64.

(** [struct _vec2_impl_struct]: [VEC2_BODY(unsigned char)].  [mem] is the
    allocation that [data - _start * el_size] points to, slot by slot. *)
Record vec {A : Type} := mkVec {
  size : Z;
  capacity : Z;
  _idx : Z;
  _start : Z;
  data : Z;
  mem : list A
}.
Arguments vec : clear implicits.
Arguments mkVec {A}.

(** [VEC2_INITIALIZER] / [_vec2_impl_init]: the zeroed structure. *)
Definition vec2_zero {A} : vec A := mkVec 0 0 0 0 0 [].

Section Memory.
Context {A : Type}.

(** [memcpy]/[memmove] from the slot run [xs] to slot [dst]: slots past the end
    of the allocation are not part of the model (writing there is undefined
    behaviour in C), so the list keeps its length. *)
Definition write (m : list A) (dst : nat) (xs : list A) : list A :=
  firstn dst m ++ firstn (length m - dst) xs ++ skipn (dst + length xs) m.

(** Reading [n] slots starting at slot [src]. *)
Definition read (m : list A) (src n : nat) : list A :=
  firstn n (skipn src m).

(** [memmove(base + dst, base + src, n)] inside one allocation. *)
Definition memmove (m : list A) (dst src n : Z) : list A :=
  write m (Z.to_nat dst) (read m (Z.to_nat src) (Z.to_nat n)).

(** [realloc] to [n] slots keeps the first [n] slots; fresh slots hold the
    unspecified value [junk]. *)
Definition resize (junk : A) (n : nat) (m : list A) : list A :=
  firstn n m ++ repeat junk (n - length m).

(** Writing a single slot (one of the memcpy's of the byte-wise swap). *)
Definition store (m : list A) (i : nat) (x : A) : list A := write m i [x].

End Memory.

Section Cvec2.
Context {A : Type}.

(** Contents of slots the C code reads without having written them. *)
Variable junk : A.

(** [realloc(old, bytes)]: [None] is a failed allocation (returns [NULL] and
    leaves the old block alone); [Some p] is the address of the new block. *)
Variable realloc : Z -> Z -> option positive.

(** [qsort] over the live range with a comparator. *)
Variable qsort : (A -> A -> Z) -> list A -> list A.

Abbreviation vec := (vec A).

Definition vec2_start (v : vec) : Z := _start v.

(** [vec2_mem]: the base of the allocation. *)
Definition vec2_mem (v : vec) (el_size : Z) : Z := data v - _start v * el_size.

(** The logical content: the [size] live elements starting at [_start]. *)
Definition content (v : vec) : list A :=
  read (mem v) (Z.to_nat (_start v)) (Z.to_nat (size v)).

(** Field updates. *)
Definition set_size (v : vec) (s : Z) : vec :=
  mkVec s (capacity v) (_idx v) (_start v) (data v) (mem v).
Definition set_idx (v : vec) (i : Z) : vec :=
  mkVec (size v) (capacity v) i (_start v) (data v) (mem v).
Definition set_mem (v : vec) (m : list A) : vec :=
  mkVec (size v) (capacity v) (_idx v) (_start v) (data v) m.
Definition set_start_data (v : vec) (s d : Z) : vec :=
  mkVec (size v) (capacity v) (_idx v) s d (mem v).

(** [_vec2_impl_valid] (cvec2.h); the pointer itself is never NULL here. *)
Definition _vec2_impl_valid (v : vec) : bool :=
  ((capacity v =? 0) && (data v =? 0)) || (size v <=? capacity v).

(** [_vec2_reserve]. *)
Definition _vec2_reserve (v : vec) (additional el_size : Z) : bool * vec :=
  if additional >? (capacity v - size v) mod WORD then
    let new_capacity := (capacity v + additional) mod WORD in
    if new_capacity <? capacity v then (false, v)
    else
      let alloc_size := (new_capacity * el_size) mod WORD in
      if negb (alloc_size / el_size =? new_capacity) then (false, v)
      else
        match realloc (vec2_mem v el_size) alloc_size with
        | None => (false, v)
        | Some new_mem =>
            (true, mkVec (size v) new_capacity (_idx v) (_start v)
                     (Zpos new_mem + el_size * _start v)
                     (resize junk (Z.to_nat new_capacity) (mem v)))
        end
  else (true, v).

(** The first loop of [_vec2_create_hole]:
    [while (addition < len) { next = (addition << 1) + (addition >> 1); ... }],
    computed in [unsigned int].  [None]: the loop has not exited after [fuel]
    iterations; with [addition = 0] (capacity 1) it never exits. *)
Fixpoint grow_loop (fuel : nat) (addition len : Z) : option Z :=
  match fuel with
  | O => None
  | S fuel' =>
      if addition <? len then
        let next_addition :=
          (Z.shiftl addition 1 mod UINT + Z.shiftr addition 1) mod UINT in
        if next_addition <? addition then Some (len mod UINT)
        else grow_loop fuel' next_addition len
      else Some addition
  end.

(** The second loop: [while (!_vec2_reserve(vec_ptr, addition, el_size))].
    [addition] only decreases, and is below [2^32], so it exits within 34
    iterations; [None] is kept for an exhausted [fuel]. *)
Fixpoint reserve_loop (fuel : nat) (v : vec) (addition len el_size : Z)
  : option (bool * vec) :=
  match fuel with
  | O => None
  | S fuel' =>
      match _vec2_reserve v addition el_size with
      | (true, v') => Some (true, v')
      | (false, _) =>
          if (addition >? len) && (Z.shiftr addition 1 <? len) then
            reserve_loop fuel' v len len el_size
          else
            let addition' := Z.shiftr addition 1 in
            if addition' <? len then Some (false, v)
            else reserve_loop fuel' v addition' len el_size
      end
  end.

(** The placement part of [_vec2_create_hole] (lines 136-169). *)
Definition place_hole (v : vec) (idx len el_size : Z) : vec :=
  if size v >? 0 then
    if (idx =? 0) && (_start v >=? len) then
      set_start_data v (_start v - len) (data v - len * el_size)
    else if (idx <? size v) ||
            (len >? (capacity v - (_start v + size v)) mod WORD) then
      let shift_back :=
        if (idx =? size v) || (len >? _start v) then _start v else len in
      let start' := _start v - shift_back in
      let v1 := set_start_data v start' (data v - shift_back * el_size) in
      let m1 := memmove (mem v1) start' (start' + shift_back) idx in
      let m2 :=
        if (idx <? size v) && (len >? shift_back) then
          memmove m1 (start' + idx + len) (start' + idx + shift_back)
                  (len - shift_back)
        else m1 in
      set_mem v1 m2
    else v
  else v.

(** [_vec2_create_hole]; [None]: the call does not return. *)
Definition _vec2_create_hole (v : vec) (idx len el_size : Z) : option (bool * vec) :=
  if (len <=? 0) || (idx >? size v) || ((size v + len) mod WORD <? size v) then
    Some (false, v)
  else
    let reserved :=
      if (size v + len) mod WORD >? capacity v then
        let addition :=
          if capacity v =? 0 then VEC2_INITIAL_CAPACITY
          else Z.shiftr (capacity v) 1 mod UINT in
        match grow_loop LOOP_FUEL addition len with
        | None => None
        | Some addition' => reserve_loop LOOP_FUEL v addition' len el_size
        end
      else Some (true, v) in
    match reserved with
    | None => None
    | Some (false, v') => Some (false, v')
    | Some (true, v') => Some (true, place_hole v' idx len el_size)
    end.

(** [_vec2_remove]; [out] is the caller's buffer ([None] is [NULL]), returned
    with its first [len] slots overwritten. *)
Definition _vec2_remove (v : vec) (idx len el_size : Z) (out : option (list A))
  : bool * vec * option (list A) :=
  if (len >? size v) || ((size v - len) mod WORD <? idx) then (false, v, out)
  else if len =? 0 then (true, v, out)
  else
    let out' :=
      match out with
      | Some o =>
          Some (read (mem v) (Z.to_nat (_start v + idx)) (Z.to_nat len)
                ++ skipn (Z.to_nat len) o)
      | None => None
      end in
    let v1 := set_size v (size v - len) in
    if size v1 =? 0 then (true, v1, out')
    else if idx =? 0 then
      (true, set_start_data v1 (_start v1 + len) (data v1 + len * el_size), out')
    else if idx <? size v1 then
      (true, set_mem v1 (memmove (mem v1) (_start v1 + idx) (_start v1 + idx + len)
                                 (size v1 - idx)), out')
    else (true, v1, out').

(** [_vec2_clear]: free and zero the structure. *)
Definition _vec2_clear (v : vec) (el_size : Z) : vec := vec2_zero.

(** [_vec2_impl_reserve]. *)
Definition _vec2_impl_reserve (v : vec) (additional el_size : Z) : bool * vec :=
  if negb (_vec2_impl_valid v) || (el_size =? 0) then (false, v)
  else _vec2_reserve v additional el_size.

(** [_vec2_impl_shrink]. *)
Definition _vec2_impl_shrink (v : vec) (el_size : Z) : bool * vec :=
  if negb (_vec2_impl_valid v) || (el_size =? 0) then (false, v)
  else if size v =? 0 then (true, _vec2_clear v el_size)
  else if (size v <? capacity v) && (capacity v >? VEC2_INITIAL_CAPACITY) then
    let new_capacity :=
      if size v >? VEC2_INITIAL_CAPACITY then size v else VEC2_INITIAL_CAPACITY in
    let v1 :=
      if _start v >? 0 then
        mkVec (size v) (capacity v) (_idx v) 0 (vec2_mem v el_size)
              (memmove (mem v) 0 (_start v) (size v))
      else v in
    match realloc (data v1) ((new_capacity * el_size) mod WORD) with
    | None => (false, v1)
    | Some new_mem =>
        (true, mkVec (size v1) (size v1) (_idx v1) (_start v1) (Zpos new_mem)
                 (resize junk (Z.to_nat new_capacity) (mem v1)))
    end
  else (true, v).

(** [_vec2_impl_create_hole]. *)
Definition _vec2_impl_create_hole (v : vec) (idx len el_size : Z) : option (bool * vec) :=
  if negb (_vec2_impl_valid v) || (len <=? 0) || (el_size =? 0) then Some (false, v)
  else
    match _vec2_create_hole v idx len el_size with
    | None => None
    | Some (false, v') => Some (false, v')
    | Some (true, v') => Some (true, set_idx v' idx)
    end.

(** [_vec2_impl_swap]: the chunked byte-wise exchange of two [el_size]-byte
    elements exchanges the two slots. *)
Definition _vec2_impl_swap (v : vec) (first second el_size : Z) : bool * vec :=
  if negb (_vec2_impl_valid v) || (first >=? size v) || (second >=? size v)
     || (el_size =? 0) then (false, v)
  else if negb (first =? second) then
    let i := Z.to_nat (_start v + first) in
    let j := Z.to_nat (_start v + second) in
    let x := nth i (mem v) junk in
    let y := nth j (mem v) junk in
    (true, set_mem v (store (store (mem v) i y) j x))
  else (true, v).

(** [_vec2_impl_sort]; [None] is a NULL comparator. *)
Definition _vec2_impl_sort (v : vec) (cmpfn : option (A -> A -> Z)) (el_size : Z)
  : bool * vec :=
  match cmpfn with
  | Some cmp =>
      if negb (_vec2_impl_valid v) || (el_size =? 0) then (false, v)
      else if size v =? 0 then (true, v)
      else (true, set_mem v (write (mem v) (Z.to_nat (_start v)) (qsort cmp (content v))))
  | None => (false, v)
  end.

(** [_vec2_impl_assign]; [val] is the caller's array ([None] is [NULL]). *)
Definition _vec2_impl_assign (v : vec) (idx : Z) (val : option (list A)) (len el_size : Z)
  : bool * vec :=
  match val with
  | Some xs =>
      if negb (_vec2_impl_valid v) || (el_size =? 0) || (idx >=? size v)
         || ((size v - idx) mod WORD <? len) then (false, v)
      else (true, set_mem v (write (mem v) (Z.to_nat (_start v + idx))
                                   (firstn (Z.to_nat len) xs)))
  | None => (false, v)
  end.

(** [_vec2_impl_remove]. *)
Definition _vec2_impl_remove (v : vec) (idx len el_size : Z) (out : option (list A))
  : bool * vec * option (list A) :=
  if negb (_vec2_impl_valid v) || (el_size =? 0) then (false, v, out)
  else _vec2_remove v idx len el_size out.

(** [_vec2_impl_insert]. *)
Definition _vec2_impl_insert (v : vec) (idx : Z) (val : option (list A)) (len el_size : Z)
  : option (bool * vec) :=
  match val with
  | Some xs =>
      if negb (_vec2_impl_valid v) || (el_size =? 0) then Some (false, v)
      else if len >? 0 then
        match _vec2_create_hole v idx len el_size with
        | None => None
        | Some (false, v') => Some (false, v')
        | Some (true, v') =>
            let v'' := set_mem v' (write (mem v') (Z.to_nat (_start v' + idx))
                                         (firstn (Z.to_nat len) xs)) in
            Some (true, set_size v'' ((size v'' + len) mod WORD))
        end
      else Some (true, v)
  | None => Some (false, v)
  end.

(** [_vec2_impl_clear]. *)
Definition _vec2_impl_clear (v : vec) (el_size : Z) : vec :=
  if _vec2_impl_valid v then _vec2_clear v el_size else v.

End Cvec2.

(** The invariants of section 3 of the spec, with the allocation holding at
    least [capacity] slots. *)
Definition vec_wf {A} (v : vec A) : Prop :=
  0 <= size v /\ 0 <= _start v /\ _start v + size v <= capacity v /\
  capacity v <= Z.of_nat (length (mem v)) /\ capacity v < WORD /\
  (capacity v = 0 <-> data v = 0).

(** The three invariants the spec lists in its testable properties. *)
Definition vec_invariants {A} (v : vec A) : Prop :=
  size v <= capacity v /\ (capacity v = 0 <-> data v = 0) /\
  _start v + size v <= capacity v.

(** * Concrete runs: [int] elements ([el_size = 4]), unwritten slots read [0]. *)

(** An allocator that always succeeds, handing out the block at 4096. *)
Definition heap_ok : Z -> Z -> option positive := fun _ _ => Some 4096%positive.

(** An allocator that can hand out a fresh block ([realloc(NULL, n)]) but fails
    to resize an existing one. *)
Definition heap_fresh_only : Z -> Z -> option positive :=
  fun old _ => if old =? 0 then Some 4096%positive else None.

(** Public calls on [int] vectors, keeping the resulting structure. *)
Definition int_insert (heap : Z -> Z -> option positive) (v : vec Z) (idx : Z)
  (xs : list Z) : vec Z :=
  match _vec2_impl_insert 0 heap v idx (Some xs) (Z.of_nat (length xs)) 4 with
  | Some (_, v') => v'
  | None => v
  end.

Definition int_remove (v : vec Z) (idx len : Z) : vec Z :=
  match _vec2_impl_remove v idx len 4 None with (_, v', _) => v' end.

(** [vec2_push] of 1, 2, 3 on an empty vector: [1;2;3], no front slack. *)
Definition v123 : vec Z :=
  int_insert heap_ok (int_insert heap_ok (int_insert heap_ok vec2_zero 0 [1]) 1 [2]) 2 [3].

(** Eight elements pushed at once, then 7 and 1 shifted off the front. *)
Definition v8_drained : vec Z :=
  int_remove (int_remove (int_insert heap_ok vec2_zero 0 [1;2;3;4;5;6;7;8]) 0 7) 0 1.

(** Nine elements pushed, the first one shifted off (front slack 1). *)
Definition v9_shifted : vec Z :=
  int_remove (int_insert heap_fresh_only vec2_zero 0 [1;2;3;4;5;6;7;8;9]) 0 1.

(** [vec2_reserve(v, 64)] on an empty vector, then [1;2] pushed. *)
Definition v2_cap64 : vec Z :=
  int_insert heap_ok (snd (_vec2_impl_reserve 0 heap_ok vec2_zero 64 4)) 0 [1;2].


(** * The accessor and convenience macros of cvec2.h *)

Section Macros.
Context {A : Type}.
Variable junk : A.
Variable realloc : Z -> Z -> option positive.

(** [vec2_get]: [&vec2_data(v)[idx]] when valid and [idx < size], else
    [NULL]; the pointer is modelled by the slot it points to. *)
Definition vec2_get (v : vec A) (idx : Z) : option A :=
  if _vec2_impl_valid v && (idx <? size v)
  then nth_error (mem v) (Z.to_nat (_start v + idx)) else None.

(** [vec2_first]: [vec2_get(v, 0)]. *)
Definition vec2_first (v : vec A) : option A := vec2_get v 0.

(** [vec2_last]: [&vec2_data(v)[size - 1]] when valid and non-empty. *)
Definition vec2_last (v : vec A) : option A :=
  if _vec2_impl_valid v && (size v >? 0)
  then nth_error (mem v) (Z.to_nat (_start v + (size v - 1))) else None.

(** [vec2_pop_multi]: [vec2_remove(v, vec2_size(v) - len, len, out)], the
    subtraction done in size_t. *)
Definition vec2_pop_multi (v : vec A) (len el_size : Z) (out : option (list A))
  : bool * vec A * option (list A) :=
  _vec2_impl_remove v ((size v - len) mod WORD) len el_size out.

(** [vec2_shift_multi]: [vec2_remove(v, 0, len, out)]. *)
Definition vec2_shift_multi (v : vec A) (len el_size : Z) (out : option (list A))
  : bool * vec A * option (list A) :=
  _vec2_impl_remove v 0 len el_size out.


(** [vec2_insert]: [_vec2_impl_create_hole(v, idx, 1, el_size) &&
    (vec2_data(v)[v->_idx[0]] = val, ++v->size, TRUE)]. *)
Definition vec2_insert (v : vec A) (idx : Z) (val : A) (el_size : Z)
  : option (bool * vec A) :=
  match _vec2_impl_create_hole junk realloc v idx 1 el_size with
  | None => None
  | Some (false, v') => Some (false, v')
  | Some (true, v') =>
      let v'' := set_mem v' (store (mem v') (Z.to_nat (_start v' + _idx v')) val) in
      Some (true, set_size v'' ((size v'' + 1) mod WORD))
  end.

(** [vec2_assign]: [_vec2_impl_valid(v) && ((v->_idx[0] = idx) < vec2_size(v))
    && (vec2_data(v)[v->_idx[0]] = val, TRUE)]. *)
Definition vec2_assign (v : vec A) (idx : Z) (val : A) : bool * vec A :=
  if _vec2_impl_valid v then
    let v1 := set_idx v idx in
    if idx <? size v1
    then (true, set_mem v1 (store (mem v1) (Z.to_nat (_start v1 + _idx v1)) val))
    else (false, v1)
  else (false, v).

End Macros.

(** The invariants together with the pointer layout the code keeps: a vector
    with an allocation has [data = base + _start * el_size] for a non-NULL
    base. *)
Definition vec_ok {A} (v : vec A) (el_size : Z) : Prop :=
  vec_wf v /\ (0 < capacity v -> 0 < vec2_mem v el_size).

(** Position exchange done by [_vec2_impl_swap]: slot [p] receives slot [q]
    and the reverse. *)
Definition swap_pos (p q k : nat) : nat :=
  if (k =? p)%nat then q else if (k =? q)%nat then p else k.

(** * Arithmetic of size_t *)

Lemma mod_word_small (a : Z) : 0 <= a < WORD -> a mod WORD = a.
Proof. intros; apply Z.mod_small; lia. Qed.

Lemma mod_word_wrap (a b : Z) :
  0 <= a < WORD -> 0 <= b < WORD -> a + b >= WORD -> (a + b) mod WORD = a + b - WORD.
Proof.
  intros Ha Hb Hab.
  rewrite <- (Z.mod_add (a + b) (-1) WORD) by (unfold WORD; lia).
  apply Z.mod_small; lia.
Qed.

Lemma wf_valid {A} (v : vec A) : vec_wf v -> _vec2_impl_valid v = true.
Proof.
  intros (? & ? & ? & ? & ? & ?); unfold _vec2_impl_valid.
  apply orb_true_iff; right; apply Z.leb_le; lia.
Qed.

(** Deciding a comparison of [Z] from the hypotheses. *)
Ltac zbool :=
  symmetry;
  first [ rewrite Z.gtb_ltb | rewrite Z.geb_leb | idtac ];
  first [ apply Z.ltb_ge; lia | apply Z.ltb_lt; lia | apply Z.leb_le; lia
        | apply Z.leb_gt; lia | apply Z.eqb_eq; lia | apply Z.eqb_neq; lia ].

(** * Slot-list facts *)

Section ListFacts.
Context {A : Type}.
Implicit Types m P Q xs : list A.

Lemma length_read m s n : (s + n <= length m)%nat -> length (read m s n) = n.
Proof.
  intros H; unfold read; rewrite length_firstn, length_skipn; lia.
Qed.

Lemma read_app_r P Q k n : read (P ++ Q) (length P + k) n = read Q k n.
Proof.
  unfold read; rewrite skipn_app, skipn_all2 by lia; simpl.
  now replace (length P + k - length P)%nat with k by lia.
Qed.

Lemma read_read m s i n N : (i + n <= N)%nat -> read (read m s N) i n = read m (s + i) n.
Proof.
  intros H; unfold read.
  rewrite skipn_firstn_comm, firstn_firstn, skipn_skipn, Nat.min_l by lia.
  now rewrite Nat.add_comm.
Qed.

Lemma skipn_as_read xs a k : (a + k = length xs)%nat -> skipn a xs = read xs a k.
Proof.
  intros H; unfold read; rewrite firstn_all2; [reflexivity | rewrite length_skipn; lia].
Qed.

Lemma firstn_as_read xs a : firstn a xs = read xs 0 a.
Proof. reflexivity. Qed.

Lemma read_zero m s : read m s 0 = [].
Proof. reflexivity. Qed.

Lemma read_all xs n : length xs = n -> read xs 0 n = xs.
Proof. intros <-; apply firstn_all. Qed.

Lemma write_app_r P Q k xs : write (P ++ Q) (length P + k) xs = P ++ write Q k xs.
Proof.
  unfold write; rewrite length_app, firstn_app, skipn_app.
  rewrite firstn_all2, skipn_all2 by lia; simpl; rewrite <- !app_assoc.
  replace (length P + k - length P)%nat with k by lia.
  replace (length P + k + length xs - length P)%nat with (k + length xs)%nat by lia.
  now replace (length P + length Q - (length P + k))%nat with (length Q - k)%nat by lia.
Qed.

Lemma write_front Q xs :
  (length xs <= length Q)%nat -> write Q 0 xs = xs ++ skipn (length xs) Q.
Proof.
  intros H; unfold write; simpl; rewrite firstn_all2 by lia; reflexivity.
Qed.

Lemma length_write m d xs : length (write m d xs) = length m.
Proof.
  unfold write; rewrite !length_app, !length_firstn, length_skipn; lia.
Qed.

(** Closing a gap of [d] slots after the first [i] live slots, as the
    interior branch of [_vec2_remove] does. *)
Lemma read_close_gap m s i d k :
  (s + i + d + k <= length m)%nat ->
  read (write m (s + i) (read m (s + i + d) k)) s (i + k)
  = read m s i ++ read m (s + i + d) k.
Proof.
  intros H.
  pose proof (firstn_skipn (s + i) m) as Hm.
  set (F := firstn (s + i) m) in *; set (G := skipn (s + i) m) in *.
  assert (HF : length F = (s + i)%nat) by (unfold F; rewrite length_firstn; lia).
  assert (HG : length G = (length m - (s + i))%nat) by (unfold G; apply length_skipn).
  assert (Hr : read m (s + i + d) k = read G d k).
  { rewrite <- Hm, <- HF; apply read_app_r. }
  rewrite Hr.
  assert (HY : length (read G d k) = k) by (apply length_read; lia).
  assert (Hw : write m (s + i) (read G d k) = F ++ (read G d k ++ skipn k G)).
  { replace (skipn k G) with (skipn (length (read G d k)) G) by (now rewrite HY).
    rewrite <- (write_front G) by lia.
    rewrite <- (write_app_r F G 0), HF, Nat.add_0_r, Hm; reflexivity. }
  rewrite Hw.
  assert (Hs : read m s i = skipn s F).
  { unfold F, read; rewrite skipn_firstn_comm; f_equal; lia. }
  rewrite Hs; unfold read at 1; rewrite skipn_app.
  replace (s - length F)%nat with 0%nat by lia; simpl.
  assert (HsF : length (skipn s F) = i) by (rewrite length_skipn; lia).
  replace (i + k)%nat with (length (skipn s F) + length (read G d k))%nat by lia.
  rewrite firstn_app_2, firstn_app, firstn_all, Nat.sub_diag, firstn_O, app_nil_r.
  reflexivity.
Qed.

End ListFacts.

(** * Claims *)

(** C9: [_vec2_impl_insert] with [len = 0] succeeds and leaves the vector as it
    was, at every index, on a valid vector with a non-NULL [val] and a non-zero
    element size. *)
Theorem insert_zero_len_noop {A} (junk : A) realloc (v : vec A) idx xs el_size :
  _vec2_impl_valid v = true -> el_size <> 0 ->
  _vec2_impl_insert junk realloc v idx (Some xs) 0 el_size = Some (true, v).
Proof.
  intros Hv Hel; unfold _vec2_impl_insert; rewrite Hv.
  destruct (Z.eqb_spec el_size 0); [contradiction | reflexivity].
Qed.

(** C7: [_vec2_impl_create_hole] fails, and leaves the vector unchanged, when
    [len = 0], when [idx > size], or when [size + len] wraps around size_t. *)
Theorem create_hole_precondition_failure {A} (junk : A) realloc (v : vec A) idx len el_size :
  0 <= size v < WORD -> 0 <= len < WORD ->
  (len = 0 \/ idx > size v \/ size v + len >= WORD) ->
  _vec2_impl_create_hole junk realloc v idx len el_size = Some (false, v).
Proof.
  intros Hs Hl Hcase; unfold _vec2_impl_create_hole.
  destruct (negb (_vec2_impl_valid v) || (len <=? 0) || (el_size =? 0)) eqn:Hpre;
    [reflexivity |].
  unfold _vec2_create_hole.
  replace ((len <=? 0) || (idx >? size v) || ((size v + len) mod WORD <? size v))
    with true; [reflexivity |].
  symmetry; destruct Hcase as [-> | [Hi | Hw]].
  - reflexivity.
  - apply orb_true_iff; left; apply orb_true_iff; right; apply Z.gtb_lt; lia.
  - apply orb_true_iff; right; rewrite mod_word_wrap by lia; apply Z.ltb_lt.
    unfold WORD in *; lia.
Qed.

(** C10: removing a run that ends at the last live element ([idx + len = size],
    [0 < len < size]) succeeds and only decreases [size]: [_start], [data],
    [capacity], [_idx] and the allocation's slots are unchanged. *)
Theorem remove_tail_moves_nothing {A} (v : vec A) idx len el_size out :
  _vec2_impl_valid v = true -> el_size <> 0 -> size v < WORD ->
  0 < len < size v -> idx + len = size v ->
  let '(ok, v', _) := _vec2_impl_remove v idx len el_size out in
  ok = true /\ size v' = size v - len /\ _start v' = _start v /\ data v' = data v /\
  capacity v' = capacity v /\ _idx v' = _idx v /\ mem v' = mem v.
Proof.
  intros Hv Hel Hw Hl Hi; unfold _vec2_impl_remove, _vec2_remove; rewrite Hv.
  destruct (Z.eqb_spec el_size 0); [contradiction |]; simpl.
  rewrite (mod_word_small (size v - len)) by lia.
  replace (len >? size v) with false by zbool.
  replace (size v - len <? idx) with false by zbool.
  replace (len =? 0) with false by zbool.
  replace (size v - len =? 0) with false by zbool.
  replace (idx =? 0) with false by zbool.
  replace (idx <? size v - len) with false by zbool.
  simpl; repeat split; reflexivity.
Qed.

(** C6: when [additional > capacity - size] and either [capacity + additional]
    wraps around size_t or [(capacity + additional) * el_size] overflows,
    [_vec2_impl_reserve] fails and the vector is untouched. *)
Theorem reserve_overflow_fails {A} (junk : A) realloc (v : vec A) additional el_size :
  0 <= size v <= capacity v -> capacity v < WORD -> 0 < el_size < WORD ->
  0 <= additional < WORD -> additional > capacity v - size v ->
  (capacity v + additional >= WORD \/ (capacity v + additional) * el_size >= WORD) ->
  _vec2_impl_reserve junk realloc v additional el_size = (false, v).
Proof.
  intros Hs Hc Hel Ha Hgt Hov; unfold _vec2_impl_reserve, _vec2_reserve.
  replace (_vec2_impl_valid v) with true
    by (symmetry; apply orb_true_iff; right; apply Z.leb_le; lia).
  replace (el_size =? 0) with false by zbool; simpl.
  rewrite (mod_word_small (capacity v - size v)) by lia.
  replace (additional >? capacity v - size v) with true by zbool.
  destruct (Z_lt_ge_dec (capacity v + additional) WORD) as [Hlt | Hge].
  - rewrite (mod_word_small (capacity v + additional)) by lia.
    replace (capacity v + additional <? capacity v) with false
      by zbool.
    destruct Hov as [Hov | Hov]; [lia |].
    replace ((capacity v + additional) * el_size mod WORD / el_size =?
             capacity v + additional) with false; [reflexivity |].
    symmetry; apply Z.eqb_neq.
    assert (Hm : (capacity v + additional) * el_size mod WORD < WORD)
      by (apply Z.mod_pos_bound; unfold WORD; lia).
    assert ((capacity v + additional) * el_size mod WORD / el_size < capacity v + additional)
      by (apply Z.div_lt_upper_bound; lia).
    lia.
  - rewrite mod_word_wrap by lia.
    replace (capacity v + additional - WORD <? capacity v) with true
      by zbool.
    reflexivity.
Qed.

(** C5: on a vector satisfying the invariants, [_vec2_impl_remove idx len]
    fails exactly when [len > size] or [idx > size - len]; a successful removal
    with [len > 0] leaves the content [X[0:idx] ++ X[idx+len:]], decreases
    [size] by [len], keeps [capacity], and fills the first [len] slots of a
    non-NULL [out] with [X[idx:idx+len]]; with [len = 0] it changes nothing. *)
Theorem remove_semantics {A} (v : vec A) idx len el_size out :
  vec_wf v -> 0 < el_size -> 0 <= idx < WORD -> 0 <= len < WORD ->
  let X := content v in
  let '(ok, v', out') := _vec2_impl_remove v idx len el_size out in
  (ok = false <-> len > size v \/ idx > size v - len) /\
  (ok = true -> 0 < len ->
     content v' = firstn (Z.to_nat idx) X ++ skipn (Z.to_nat (idx + len)) X /\
     size v' = size v - len /\ capacity v' = capacity v /\
     out' = option_map (fun o => firstn (Z.to_nat len) (skipn (Z.to_nat idx) X)
                                 ++ skipn (Z.to_nat len) o) out) /\
  (ok = true -> len = 0 -> v' = v /\ out' = out).
Proof.
  intros Hwf Hel Hi Hl X.
  pose proof Hwf as (Hs0 & Hst & Hsc & Hcm & Hcw & Hnull).
  unfold _vec2_impl_remove; rewrite (wf_valid v Hwf).
  replace (el_size =? 0) with false by zbool; simpl.
  unfold _vec2_remove.
  destruct (Z_lt_ge_dec (size v) len) as [Hgt | Hle].
  { replace (len >? size v) with true by zbool; simpl.
    split; [split; [intros _; left; lia | reflexivity] | split; intros; discriminate]. }
  replace (len >? size v) with false by zbool; simpl.
  rewrite (mod_word_small (size v - len)) by lia.
  destruct (Z_lt_ge_dec (size v - len) idx) as [Hgt2 | Hle2].
  { replace (size v - len <? idx) with true by zbool.
    split; [split; [intros _; right; lia | reflexivity] | split; intros; discriminate]. }
  replace (size v - len <? idx) with false by zbool.
  destruct (Z.eqb_spec len 0) as [Hz | Hnz].
  { split; [split; [discriminate | intros [?|?]; lia] | split; [lia | auto]]. }
  (* nat views of the positions *)
  assert (HX : X = read (mem v) (Z.to_nat (_start v)) (Z.to_nat (size v))) by reflexivity.
  assert (Hlen : (Z.to_nat (_start v) + Z.to_nat (size v) <= length (mem v))%nat) by lia.
  assert (Hout : read (mem v) (Z.to_nat (_start v + idx)) (Z.to_nat len)
                 = firstn (Z.to_nat len) (skipn (Z.to_nat idx) X)).
  { rewrite HX; change (firstn ?a (skipn ?b ?c)) with (read c b a).
    rewrite read_read by lia; f_equal; lia. }
  assert (HoutEq : forall o : option (list A),
    match o with
    | Some o0 => Some (read (mem v) (Z.to_nat (_start v + idx)) (Z.to_nat len) ++ skipn (Z.to_nat len) o0)
    | None => None
    end = option_map (fun o0 => firstn (Z.to_nat len) (skipn (Z.to_nat idx) X)
                                 ++ skipn (Z.to_nat len) o0) o).
  { intros [o |]; simpl; [rewrite Hout |]; reflexivity. }
  assert (HXl : length X = Z.to_nat (size v)) by (rewrite HX; apply length_read; lia).
  unfold set_size, set_start_data, set_mem; simpl.
  destruct (Z.eqb_spec (size v - len) 0) as [Hemp | Hne];
    [| destruct (Z.eqb_spec idx 0) as [H0 | Hn0];
       [| destruct (Z_lt_ge_dec idx (size v - len)) as [Hin | Hend];
          [replace (idx <? size v - len) with true by zbool
          |replace (idx <? size v - len) with false by zbool]]];
    (split; [split; [discriminate | intros [?|?]; lia] | split; [| intros _ ?; exfalso; lia]]);
    intros _ _; (split; [| split; [reflexivity | split; [reflexivity | apply HoutEq]]]);
    unfold content; simpl.
  - (* everything removed *)
    replace (Z.to_nat (size v - len)) with 0%nat by lia.
    replace idx with 0 by lia; rewrite read_zero, firstn_O, skipn_all2 by lia.
    reflexivity.
  - (* front removal: [_start] advances *)
    subst idx; rewrite firstn_O; simpl.
    rewrite (skipn_as_read X _ (Z.to_nat (size v - len))) by lia.
    rewrite HX, read_read by lia; f_equal; lia.
  - (* interior removal: the suffix moves back by [len] *)
    unfold memmove.
    replace (Z.to_nat (_start v + idx)) with (Z.to_nat (_start v) + Z.to_nat idx)%nat by lia.
    replace (Z.to_nat (_start v + idx + len))
      with (Z.to_nat (_start v) + Z.to_nat idx + Z.to_nat len)%nat by lia.
    replace (Z.to_nat (size v - len))
      with (Z.to_nat idx + Z.to_nat (size v - len - idx))%nat by lia.
    rewrite read_close_gap by lia.
    rewrite firstn_as_read, (skipn_as_read X _ (Z.to_nat (size v - len - idx))) by lia.
    rewrite HX, !read_read by lia; f_equal; f_equal; lia.
  - (* tail removal: nothing moves *)
    rewrite (skipn_all2 X) by lia; rewrite app_nil_r.
    rewrite firstn_as_read, HX, read_read by lia; f_equal; lia.
Qed.

(** C5 at a concrete input: removing [2] from [1;2;3]. *)
Lemma remove_semantics_witness :
  vec_wf v123 /\
  (let X := content v123 in
   let '(ok, v', out') := _vec2_impl_remove v123 1 1 4 (Some [0]) in
   (ok = false <-> 1 > size v123 \/ 1 > size v123 - 1) /\
   (ok = true -> 0 < 1 ->
      content v' = firstn (Z.to_nat 1) X ++ skipn (Z.to_nat (1 + 1)) X /\
      size v' = size v123 - 1 /\ capacity v' = capacity v123 /\
      out' = option_map (fun o => firstn (Z.to_nat 1) (skipn (Z.to_nat 1) X)
                                  ++ skipn (Z.to_nat 1) o) (Some [0])) /\
   (ok = true -> 1 = 0 -> v' = v123 /\ out' = Some [0])).
Proof.
  assert (Hwf : vec_wf v123).
  { unfold vec_wf; vm_compute. repeat split; try discriminate; intros H; discriminate H. }
  split; [exact Hwf |].
  apply (remove_semantics v123 1 1 4 (Some [0]) Hwf); unfold WORD; lia.
Defined.

(** * Failure paths *)

Section FailurePaths.
Context {A : Type} (junk : A) (realloc : Z -> Z -> option positive).

Lemma reserve_fail_same (v v' : vec A) additional el_size :
  _vec2_reserve junk realloc v additional el_size = (false, v') -> v' = v.
Proof.
  unfold _vec2_reserve.
  destruct (additional >? _); [| congruence].
  destruct (_ <? capacity v); [congruence |].
  destruct (negb _); [congruence |].
  destruct (realloc _ _); congruence.
Qed.

Lemma reserve_loop_fail_same fuel (v v' : vec A) addition len el_size :
  reserve_loop junk realloc fuel v addition len el_size = Some (false, v') -> v' = v.
Proof.
  revert addition; induction fuel as [| fuel IH]; intros addition; simpl; [congruence |].
  destruct (_vec2_reserve junk realloc v addition el_size) as [[|] v1]; [congruence |].
  destruct (_ && _); [apply IH |].
  destruct (_ <? len); [congruence | apply IH].
Qed.

Lemma create_hole_fail_same (v v' : vec A) idx len el_size :
  _vec2_create_hole junk realloc v idx len el_size = Some (false, v') -> v' = v.
Proof.
  unfold _vec2_create_hole.
  destruct (_ || _); [congruence |].
  destruct (_ >? capacity v).
  - destruct (grow_loop _ _ _); [| discriminate].
    destruct (reserve_loop _ _ _ _ _ _ _) as [[[|] v1] |] eqn:Hr; try congruence.
    intros [= <-]; exact (reserve_loop_fail_same _ _ _ _ _ _ Hr).
  - congruence.
Qed.

End FailurePaths.

(** C2 (as amended): every public call that fails leaves the structure as it
    was, except [_vec2_impl_shrink] when its [realloc] fails: the live elements
    have then already been moved to the base of the allocation, so [_start] is
    0 and [data] is the allocation's base, while [size], [capacity], [_idx] and
    the content are those of the call's input. *)
Theorem failure_leaves_state {A} (junk : A) realloc qsort (v : vec A) el_size :
  (forall additional v',
     _vec2_impl_reserve junk realloc v additional el_size = (false, v') -> v' = v) /\
  (forall idx len v',
     _vec2_impl_create_hole junk realloc v idx len el_size = Some (false, v') -> v' = v) /\
  (forall idx val len v',
     _vec2_impl_insert junk realloc v idx val len el_size = Some (false, v') -> v' = v) /\
  (forall idx len out v' out',
     _vec2_impl_remove v idx len el_size out = (false, v', out') -> v' = v /\ out' = out) /\
  (forall first second v',
     _vec2_impl_swap junk v first second el_size = (false, v') -> v' = v) /\
  (forall cmpfn v', _vec2_impl_sort qsort v cmpfn el_size = (false, v') -> v' = v) /\
  (forall idx val len v',
     _vec2_impl_assign v idx val len el_size = (false, v') -> v' = v) /\
  (forall v', _vec2_impl_shrink junk realloc v el_size = (false, v') ->
     v' = v \/
     (0 < _start v /\ _start v' = 0 /\ data v' = vec2_mem v el_size /\
      size v' = size v /\ capacity v' = capacity v /\ _idx v' = _idx v /\
      (vec_wf v -> content v' = content v))).
Proof.
  refine (conj _ (conj _ (conj _ (conj _ (conj _ (conj _ (conj _ _))))))).
  - intros additional v'; unfold _vec2_impl_reserve.
    destruct (_ || _); [congruence | apply reserve_fail_same].
  - intros idx len v'; unfold _vec2_impl_create_hole.
    destruct (_ || _ || _); [congruence |].
    destruct (_vec2_create_hole junk realloc v idx len el_size) as [[[|] v1] |] eqn:H;
      try congruence.
    intros [= <-]; exact (create_hole_fail_same _ _ _ _ _ _ _ H).
  - intros idx [xs |] len v'; unfold _vec2_impl_insert; [| congruence].
    destruct (_ || _); [congruence |].
    destruct (len >? 0); [| congruence].
    destruct (_vec2_create_hole junk realloc v idx len el_size) as [[[|] v1] |] eqn:H;
      try congruence.
    intros [= <-]; exact (create_hole_fail_same _ _ _ _ _ _ _ H).
  - intros idx len out v' out'; unfold _vec2_impl_remove, _vec2_remove.
    destruct (_ || _); [intros [= <- <-]; auto |].
    destruct (_ || _); [intros [= <- <-]; auto |].
    destruct (len =? 0); [congruence |].
    destruct (_ =? 0); [congruence |]; destruct (idx =? 0); [congruence |].
    destruct (idx <? _); congruence.
  - intros first second v'; unfold _vec2_impl_swap.
    destruct (_ || _ || _ || _); [congruence |].
    destruct (negb _); congruence.
  - intros [cmp |] v'; unfold _vec2_impl_sort; [| congruence].
    destruct (_ || _); [congruence |]; destruct (size v =? 0); congruence.
  - intros idx [xs |] len v'; unfold _vec2_impl_assign; [| congruence].
    destruct (_ || _ || _ || _); congruence.
  - intros v'; unfold _vec2_impl_shrink.
    destruct (_ || _); [intros [= <-]; left; reflexivity |].
    destruct (size v =? 0); [congruence |].
    destruct (_ && _); [| congruence].
    destruct (Z.gtb_spec (_start v) 0) as [Hs | Hs].
    + destruct (realloc _ _); [congruence |].
      intros [= <-]; right; simpl; repeat split; try reflexivity; [lia |].
      intros (Hs0 & Hst & Hsc & Hcm & Hcw & Hnull).
      unfold content, memmove; simpl.
      rewrite write_front by (rewrite length_read; lia).
      rewrite <- firstn_as_read.
      rewrite <- (length_read (mem v) (Z.to_nat (_start v)) (Z.to_nat (size v))) at 1 by lia.
      rewrite firstn_app, firstn_all, Nat.sub_diag, firstn_O, app_nil_r; reflexivity.
    + destruct (realloc _ _); [congruence |].
      intros [= <-]; left; reflexivity.
Qed.

(** C2, at a concrete input: shrinking [v9_shifted] when [realloc] cannot
    resize the block fails, and the structure comes back compacted. *)
Lemma failure_leaves_state_witness :
  vec_wf v9_shifted /\
  exists v', _vec2_impl_shrink 0 heap_fresh_only v9_shifted 4 = (false, v') /\
  (v' = v9_shifted \/
   (0 < _start v9_shifted /\ _start v' = 0 /\ data v' = vec2_mem v9_shifted 4 /\
    size v' = size v9_shifted /\ capacity v' = capacity v9_shifted /\
    _idx v' = _idx v9_shifted /\ (vec_wf v9_shifted -> content v' = content v9_shifted))).
Proof.
  assert (Hwf : vec_wf v9_shifted).
  { unfold vec_wf; vm_compute. repeat split; try discriminate; intros H; discriminate H. }
  split; [exact Hwf |].
  exists (snd (_vec2_impl_shrink 0 heap_fresh_only v9_shifted 4)).
  assert (Hr : _vec2_impl_shrink 0 heap_fresh_only v9_shifted 4
               = (false, snd (_vec2_impl_shrink 0 heap_fresh_only v9_shifted 4)))
    by reflexivity.
  split; [exact Hr |].
  exact (proj2 (proj2 (proj2 (proj2 (proj2 (proj2 (proj2
           (failure_leaves_state 0 heap_fresh_only (fun _ l => l) v9_shifted 4)))))))
           _ Hr).
Defined.

(** C2 fails as stated: [v9_shifted] (content [2..9], [_start = 1], capacity 20)
    satisfies the invariants; [vec2_shrink_to_fit] on it with a [realloc] that
    cannot resize the block fails, yet returns with [_start = 0] and [data]
    moved back by one element. *)
Lemma shrink_failure_moves_start :
  vec_wf v9_shifted /\
  let r := _vec2_impl_shrink 0 heap_fresh_only v9_shifted 4 in
  fst r = false /\ snd r <> v9_shifted /\
  _start v9_shifted = 1 /\ _start (snd r) = 0 /\
  data v9_shifted = 4100 /\ data (snd r) = 4096 /\
  content (snd r) = content v9_shifted.
Proof.
  split.
  - unfold vec_wf; vm_compute. repeat split; try discriminate; intros H; discriminate H.
  - vm_compute; repeat split; try reflexivity; discriminate.
Qed.

(** C1 (code_bug): [vec2_unshift(v, 9)] on [v123 = [1;2;3]] (no front slack)
    succeeds but leaves [9;1;3;0]: the second memmove of [_vec2_create_hole]
    moves [len - shift_back = 1] element instead of the whole suffix of 3, so
    [2] is overwritten and the new last slot is never written. *)
Theorem insert_front_no_slack_content :
  content v123 = [1;2;3] /\
  match _vec2_impl_insert 0 heap_ok v123 0 (Some [9]) 1 4 with
  | Some (true, v') =>
      content v' = [9;1;3;0] /\
      content v' <> firstn 0 (content v123) ++ [9] ++ skipn 0 (content v123)
  | _ => False
  end.
Proof. vm_compute; repeat split; try reflexivity; discriminate. Qed.

(** The same defect at an interior index: inserting [9] at index 1 of
    [1;2;3] gives [1;9;2;0]. *)
Lemma insert_mid_no_slack_content :
  match _vec2_impl_insert 0 heap_ok v123 1 (Some [9]) 1 4 with
  | Some (true, v') => content v' = [1;9;2;0]
  | _ => False
  end.
Proof. vm_compute; reflexivity. Qed.

(** C8 (code_bug): inserting [9] at index 0 of [1;2;3] and removing one
    element at index 0 gives back [out = [9]] but the content [1;3;0], not
    [1;2;3] (same defect as C1). *)
Theorem insert_remove_roundtrip_breaks :
  match _vec2_impl_insert 0 heap_ok v123 0 (Some [9]) 1 4 with
  | Some (true, v') =>
      match _vec2_impl_remove v' 0 1 4 (Some [0]) with
      | (true, v'', out) => out = Some [9] /\ content v'' = [1;3;0] /\
                            content v'' <> content v123
      | _ => False
      end
  | _ => False
  end.
Proof. vm_compute; repeat split; try reflexivity; discriminate. Qed.

(** C3 (code_bug): [vec2_shrink_to_fit] on [v2_cap64] ([size = 2],
    [capacity = 64]) reallocates to [max(size, 8) = 8] slots but stores
    [capacity = size = 2]. *)
Theorem shrink_sets_capacity_to_size :
  size v2_cap64 = 2 /\ capacity v2_cap64 = 64 /\
  let '(ok, v') := _vec2_impl_shrink 0 heap_ok v2_cap64 4 in
  ok = true /\ content v' = content v2_cap64 /\
  length (mem v') = 8%nat /\ capacity v' = 2.
Proof. vm_compute; repeat split; reflexivity. Qed.

(** C4 (code_bug): from the zeroed vector, push eight elements at once, shift
    off seven and then the last one: [size = 0] but [_start] stays 7.  Pushing
    two elements then takes the [size = 0] path of [_vec2_create_hole], which
    moves nothing, and the call succeeds with [_start + size = 9 > capacity = 8]
    (the second element is written past the allocation). *)
Theorem drained_vector_push_breaks_invariant :
  let v := v8_drained in
  size v = 0 /\ _start v = 7 /\ capacity v = 8 /\
  match _vec2_impl_insert 0 heap_ok v 0 (Some [10;11]) 2 4 with
  | Some (true, v') =>
      _start v' = 7 /\ size v' = 2 /\ capacity v' = 8 /\ ~ vec_invariants v'
  | _ => False
  end.
Proof.
  assert (E : _vec2_impl_insert 0 heap_ok v8_drained 0 (Some [10;11]) 2 4
              = Some (true, mkVec 2 8 0 7 4124 [1;2;3;4;5;6;7;10]))
    by (vm_compute; reflexivity).
  cbv zeta; rewrite E.
  split; [vm_compute; reflexivity |]; split; [vm_compute; reflexivity |].
  split; [vm_compute; reflexivity |].
  repeat split; try reflexivity.
  unfold vec_invariants; simpl; lia.
Qed.

(** * Witnesses at concrete inputs *)

(** C6: [v123] (size 3, capacity 8) asked for [2^64 - 1] more slots. *)
Lemma reserve_overflow_fails_witness :
  _vec2_impl_reserve 0 heap_ok v123 (WORD - 1) 4 = (false, v123).
Proof.
  assert (Hs : size v123 = 3) by (vm_compute; reflexivity).
  assert (Hc : capacity v123 = 8) by (vm_compute; reflexivity).
  apply reserve_overflow_fails; rewrite ?Hs, ?Hc; unfold WORD; lia.
Defined.

(** C7: a hole of length 0 in [v123]. *)
Lemma create_hole_precondition_failure_witness :
  _vec2_impl_create_hole 0 heap_ok v123 1 0 4 = Some (false, v123).
Proof.
  assert (Hs : size v123 = 3) by (vm_compute; reflexivity).
  apply create_hole_precondition_failure; rewrite ?Hs; unfold WORD; lia.
Defined.

(** C9: inserting nothing past the end of [v123]. *)
Lemma insert_zero_len_noop_witness :
  _vec2_impl_insert 0 heap_ok v123 7 (Some []) 0 4 = Some (true, v123).
Proof.
  apply insert_zero_len_noop; [vm_compute; reflexivity | discriminate].
Defined.

(** C10: popping the last two elements of [v123]. *)
Lemma remove_tail_moves_nothing_witness :
  let '(ok, v', _) := _vec2_impl_remove v123 1 2 4 None in
  ok = true /\ size v' = size v123 - 2 /\ _start v' = _start v123 /\
  data v' = data v123 /\ capacity v' = capacity v123 /\ _idx v' = _idx v123 /\
  mem v' = mem v123.
Proof.
  assert (Hs : size v123 = 3) by (vm_compute; reflexivity).
  apply remove_tail_moves_nothing; rewrite ?Hs; unfold WORD;
    [vm_compute; reflexivity | lia ..].
Defined.

(** * Slot-by-slot facts *)

(** Case analysis on the [nat] comparisons of a goal. *)
Ltac nat_test_free t :=
  lazymatch t with
  | context [Nat.eqb _ _] => fail
  | context [Nat.ltb _ _] => fail
  | context [Nat.leb _ _] => fail
  | _ => idtac
  end.

Ltac split_nat_tests :=
  repeat (match goal with
          | |- context [(?a =? ?b)%nat] =>
              nat_test_free a; nat_test_free b; destruct (Nat.eqb_spec a b)
          | |- context [(?a <? ?b)%nat] =>
              nat_test_free a; nat_test_free b; destruct (Nat.ltb_spec a b)
          | |- context [(?a <=? ?b)%nat] =>
              nat_test_free a; nat_test_free b; destruct (Nat.leb_spec a b)
          end; cbn [andb orb]).

(** Closing a goal between two slot lookups. *)
Ltac nth_close :=
  first
    [ reflexivity
    | exfalso; lia
    | f_equal; lia
    | rewrite (proj2 (nth_error_None _ _)) by lia;
      rewrite (proj2 (nth_error_None _ _)) by lia; reflexivity
    | rewrite (proj2 (nth_error_None _ _)) by lia; reflexivity ].

Section SlotFacts.
Context {A : Type}.
Implicit Types m xs : list A.

Lemma nth_error_read m s n i :
  nth_error (read m s n) i = if (i <? n)%nat then nth_error m (s + i) else None.
Proof. unfold read; rewrite nth_error_firstn, nth_error_skipn; reflexivity. Qed.

Lemma length_read' m s n : length (read m s n) = Nat.min n (length m - s).
Proof. unfold read; rewrite length_firstn, length_skipn; reflexivity. Qed.

Lemma nth_error_write m d xs i :
  nth_error (write m d xs) i =
  if (d <=? i)%nat && (i <? d + length xs)%nat && (i <? length m)%nat
  then nth_error xs (i - d) else nth_error m i.
Proof.
  unfold write; rewrite !nth_error_app, nth_error_skipn, !nth_error_firstn,
    !length_firstn.
  split_nat_tests; nth_close.
Qed.

Lemma nth_error_resize (junk : A) n m i :
  nth_error (resize junk n m) i =
  if (i <? n)%nat then (if (i <? length m)%nat then nth_error m i else Some junk)
  else None.
Proof.
  unfold resize; rewrite nth_error_app, nth_error_firstn, length_firstn.
  split_nat_tests; try nth_close.
  - apply nth_error_repeat; lia.
  - apply nth_error_None; rewrite repeat_length; lia.
Qed.

Lemma length_resize (junk : A) n m : length (resize junk n m) = n.
Proof. unfold resize; rewrite length_app, length_firstn, repeat_length; lia. Qed.

Lemma length_store m i x : length (store m i x) = length m.
Proof. apply length_write. Qed.

End SlotFacts.

(** Rewriting slot lookups into comparisons and lookups in the original lists. *)
Ltac slot_rewrite :=
  repeat first
    [ rewrite nth_error_read | rewrite nth_error_write | rewrite nth_error_resize
    | rewrite nth_error_app | rewrite nth_error_firstn | rewrite nth_error_skipn
    | rewrite length_read' | rewrite length_write | rewrite length_resize
    | rewrite length_store | rewrite length_firstn | rewrite length_skipn
    | rewrite length_app ].

(** * Further properties of the code *)

Lemma nth_error_content {A} (v : vec A) k :
  nth_error (content v) k =
  if (k <? Z.to_nat (size v))%nat then nth_error (mem v) (Z.to_nat (_start v) + k) else None.
Proof. unfold content; apply nth_error_read. Qed.

Lemma length_content {A} (v : vec A) :
  vec_wf v -> length (content v) = Z.to_nat (size v).
Proof. intros (? & ? & ? & ? & ? & ?); unfold content; apply length_read; lia. Qed.

Lemma vec2_get_spec {A} (v : vec A) idx :
  vec_wf v -> 0 <= idx -> vec2_get v idx = nth_error (content v) (Z.to_nat idx).
Proof.
  intros Hwf Hi; unfold vec2_get; rewrite (wf_valid v Hwf); simpl.
  pose proof Hwf as (? & ? & ? & ? & ? & ?).
  rewrite nth_error_content.
  destruct (Z.ltb_spec idx (size v)); split_nat_tests; try (exfalso; lia); [|reflexivity].
  f_equal; lia.
Qed.

(** X1: on a well-formed vector, [vec2_get] at a non-negative index is the element at that position of the logical content, and NULL ([None]) at or past [size]. *)
Theorem vec2_get_content {A} (v : vec A) idx :
  vec_wf v -> 0 <= idx -> vec2_get v idx = nth_error (content v) (Z.to_nat idx).
Proof. exact (vec2_get_spec v idx). Qed.

(** X2: [vec2_first] is the head of the logical content and [vec2_last] its last element; both are NULL ([None]) on an empty vector. *)
Theorem vec2_first_last_content {A} (v : vec A) :
  vec_wf v ->
  vec2_first v = hd_error (content v) /\ vec2_last v = hd_error (rev (content v)).
Proof.
  intros Hwf; split.
  - unfold vec2_first; rewrite vec2_get_spec by (auto; lia).
    apply nth_error_0.
  - rewrite <- nth_error_0, nth_error_rev, length_content by exact Hwf.
    unfold vec2_last; rewrite (wf_valid v Hwf); simpl.
    pose proof Hwf as (? & ? & ? & ? & ? & ?).
    rewrite nth_error_content.
    destruct (Z.gtb_spec (size v) 0); split_nat_tests; try (exfalso; lia); [|reflexivity].
    f_equal; lia.
Qed.

Lemma nth_error_store {A} (m : list A) i x k :
  nth_error (store m i x) k =
  if (k =? i)%nat && (i <? length m)%nat then Some x else nth_error m k.
Proof.
  unfold store; rewrite nth_error_write; simpl.
  destruct (Nat.eqb_spec k i); split_nat_tests; try nth_close.
  subst; rewrite Nat.sub_diag; reflexivity.
Qed.

Lemma swap_pos_involutive p q k : swap_pos p q (swap_pos p q k) = k.
Proof. unfold swap_pos; split_nat_tests; lia. Qed.

Section SwapFacts.
Context {A : Type} (junk : A).

Lemma swap_fail (v : vec A) i j el_size :
  vec_wf v -> (size v <= i \/ size v <= j \/ el_size = 0) ->
  _vec2_impl_swap junk v i j el_size = (false, v).
Proof.
  intros Hwf H; unfold _vec2_impl_swap; rewrite (wf_valid v Hwf); simpl.
  replace ((i >=? size v) || (j >=? size v) || (el_size =? 0)) with true; [reflexivity |].
  symmetry; destruct H as [H | [H | H]].
  - rewrite (proj2 (Z.geb_le i (size v)) H); reflexivity.
  - rewrite (proj2 (Z.geb_le j (size v)) H), orb_true_r; reflexivity.
  - rewrite (proj2 (Z.eqb_eq el_size 0) H), orb_true_r; reflexivity.
Qed.

Lemma swap_ok (v : vec A) i j el_size :
  vec_wf v -> 0 <= i < size v -> 0 <= j < size v -> el_size <> 0 ->
  exists m', _vec2_impl_swap junk v i j el_size = (true, set_mem v m') /\
    length m' = length (mem v) /\
    forall k, nth_error m' k =
      nth_error (mem v) (swap_pos (Z.to_nat (_start v + i)) (Z.to_nat (_start v + j)) k).
Proof.
  intros Hwf Hi Hj Hel.
  pose proof Hwf as (Hs0 & Hst & Hsc & Hcm & Hcw & Hnull).
  set (p := Z.to_nat (_start v + i)); set (q := Z.to_nat (_start v + j)).
  exists (if negb (i =? j)
          then store (store (mem v) p (nth q (mem v) junk)) q (nth p (mem v) junk)
          else mem v).
  split; [| split].
  - unfold _vec2_impl_swap; rewrite (wf_valid v Hwf).
    replace (i >=? size v) with false by zbool.
    replace (j >=? size v) with false by zbool.
    replace (el_size =? 0) with false by zbool; simpl.
    destruct (negb (i =? j)); [reflexivity | destruct v; reflexivity].
  - destruct (negb (i =? j)); [rewrite !length_store |]; reflexivity.
  - intros k; unfold swap_pos; destruct (Z.eqb_spec i j) as [Eij | Nij]; simpl.
    + subst j; assert (Hpq : q = p) by reflexivity; rewrite Hpq.
      destruct (Nat.eqb_spec k p); subst; reflexivity.
    + rewrite !nth_error_store, length_store.
      split_nat_tests; try (exfalso; lia); try reflexivity;
        subst; symmetry; apply nth_error_nth'; lia.
Qed.

End SwapFacts.

(** X3: [_vec2_impl_swap] succeeds exactly when both indices are below [size]; it then exchanges the two elements of the content (and the two slots of the allocation) and leaves every field and every other slot as it was. *)
Theorem swap_exchanges {A} (junk : A) (v : vec A) i j el_size :
  vec_wf v -> el_size <> 0 -> 0 <= i -> 0 <= j ->
  let '(ok, v') := _vec2_impl_swap junk v i j el_size in
  (ok = true <-> i < size v /\ j < size v) /\
  (ok = true ->
     size v' = size v /\ capacity v' = capacity v /\ _start v' = _start v /\
     data v' = data v /\ _idx v' = _idx v /\
     (forall k, nth_error (mem v') k =
        nth_error (mem v) (swap_pos (Z.to_nat (_start v + i)) (Z.to_nat (_start v + j)) k)) /\
     (forall k, nth_error (content v') k =
        nth_error (content v) (swap_pos (Z.to_nat i) (Z.to_nat j) k))).
Proof.
  intros Hwf Hel Hi Hj.
  pose proof Hwf as (Hs0 & Hst & Hsc & Hcm & Hcw & Hnull).
  destruct (Z_lt_ge_dec i (size v)) as [Hgi | Hgi];
    [| rewrite swap_fail by (auto; lia); split; [split; [discriminate | lia] | discriminate]].
  destruct (Z_lt_ge_dec j (size v)) as [Hgj | Hgj];
    [| rewrite swap_fail by (auto; lia); split; [split; [discriminate | lia] | discriminate]].
  destruct (swap_ok junk v i j el_size Hwf ltac:(lia) ltac:(lia) Hel) as (m' & -> & Hlen & Hmem).
  split; [split; [intros _; lia | reflexivity] |].
  intros _; unfold set_mem; simpl.
  do 5 (split; [reflexivity |]); split; [exact Hmem |].
  intros k; unfold content; simpl; rewrite !nth_error_read, Hmem.
  unfold swap_pos; split_nat_tests; try (exfalso; lia); try reflexivity; f_equal; lia.
Qed.

Lemma vec_eq_fields {A} (v w : vec A) :
  size v = size w -> capacity v = capacity w -> _idx v = _idx w -> _start v = _start w ->
  data v = data w -> (forall k, nth_error (mem v) k = nth_error (mem w) k) -> v = w.
Proof.
  destruct v, w; simpl; intros -> -> -> -> -> Hm.
  f_equal; apply nth_error_ext; exact Hm.
Qed.

(** X4: swapping the same two indices twice gives back the original vector, with the result of the first call. *)
Theorem swap_twice_restores {A} (junk : A) (v : vec A) i j el_size :
  vec_wf v -> 0 <= i -> 0 <= j ->
  let '(ok, v1) := _vec2_impl_swap junk v i j el_size in
  _vec2_impl_swap junk v1 i j el_size = (ok, v).
Proof.
  intros Hwf Hi Hj.
  pose proof Hwf as (Hs0 & Hst & Hsc & Hcm & Hcw & Hnull).
  destruct (Z_lt_ge_dec i (size v)) as [Hgi | Hgi];
    [| rewrite swap_fail by (auto; lia); apply swap_fail; auto; lia].
  destruct (Z_lt_ge_dec j (size v)) as [Hgj | Hgj];
    [| rewrite swap_fail by (auto; lia); apply swap_fail; auto; lia].
  destruct (Z.eqb_spec el_size 0) as [Hel | Hel];
    [rewrite swap_fail by (auto; lia); apply swap_fail; auto; lia |].
  destruct (swap_ok junk v i j el_size Hwf ltac:(lia) ltac:(lia) Hel) as (m1 & -> & Hl1 & Hm1).
  assert (Hwf1 : vec_wf (set_mem v m1))
    by (unfold vec_wf, set_mem; simpl; rewrite Hl1; tauto).
  destruct (swap_ok junk (set_mem v m1) i j el_size Hwf1 ltac:(simpl; lia) ltac:(simpl; lia) Hel)
    as (m2 & -> & Hl2 & Hm2).
  f_equal; apply vec_eq_fields; try reflexivity.
  intros k; simpl in Hm2 |- *; rewrite Hm2, Hm1, swap_pos_involutive; reflexivity.
Qed.

Lemma read_write_inside {A} (m : list A) s n d ys :
  (s <= d)%nat -> (d + length ys <= s + n)%nat -> (s + n <= length m)%nat ->
  read (write m d ys) s n =
  firstn (d - s) (read m s n) ++ ys ++ skipn (d - s + length ys) (read m s n).
Proof.
  intros H1 H2 H3; apply nth_error_ext; intros k.
  rewrite nth_error_read, nth_error_write, nth_error_app, length_firstn, length_read'.
  rewrite nth_error_firstn, nth_error_read, nth_error_app, nth_error_skipn, nth_error_read.
  replace (Nat.min (d - s) (Nat.min n (length m - s))) with (d - s)%nat by lia.
  destruct (Nat.ltb_spec k n); destruct (Nat.ltb_spec k (d - s)).
  - split_nat_tests; try (exfalso; lia); reflexivity.
  - split_nat_tests; try (exfalso; lia); try reflexivity; f_equal; lia.
  - split_nat_tests; try (exfalso; lia); try reflexivity.
  - split_nat_tests; try (exfalso; lia); try reflexivity.
    all: apply nth_error_None; lia.
Qed.

Lemma nth_error_write_outside {A} (m : list A) d ys k :
  (k < d \/ d + length ys <= k)%nat -> nth_error (write m d ys) k = nth_error m k.
Proof. intros H; rewrite nth_error_write; split_nat_tests; try reflexivity; lia. Qed.

(** X5: [_vec2_impl_assign] succeeds exactly when [idx < size] and [len <= size - idx]; it then overwrites content positions [idx, idx+len) with the first [len] values, keeps all fields, and touches no slot outside that range. *)
Theorem assign_semantics {A} (v : vec A) idx xs len el_size :
  vec_wf v -> el_size <> 0 -> 0 <= idx < WORD -> 0 <= len < WORD ->
  let X := content v in
  let '(ok, v') := _vec2_impl_assign v idx (Some xs) len el_size in
  (ok = true <-> idx < size v /\ len <= size v - idx) /\
  (ok = true -> (Z.to_nat len <= length xs)%nat ->
     content v' = firstn (Z.to_nat idx) X ++ firstn (Z.to_nat len) xs
                  ++ skipn (Z.to_nat (idx + len)) X /\
     size v' = size v /\ capacity v' = capacity v /\ _start v' = _start v /\
     data v' = data v /\ _idx v' = _idx v /\
     (forall k, (k < Z.to_nat (_start v + idx) \/ Z.to_nat (_start v + idx + len) <= k)%nat ->
                nth_error (mem v') k = nth_error (mem v) k)).
Proof.
  intros Hwf Hel Hi Hl X.
  pose proof Hwf as (Hs0 & Hst & Hsc & Hcm & Hcw & Hnull).
  unfold _vec2_impl_assign; rewrite (wf_valid v Hwf).
  replace (el_size =? 0) with false by zbool; simpl.
  destruct (Z_lt_ge_dec idx (size v)) as [Hgi | Hgi];
    [| replace (idx >=? size v) with true by zbool; simpl;
       split; [split; [discriminate | lia] | discriminate]].
  replace (idx >=? size v) with false by zbool; simpl.
  rewrite (mod_word_small (size v - idx)) by lia.
  destruct (Z_lt_ge_dec (size v - idx) len) as [Hgl | Hgl];
    [replace (size v - idx <? len) with true by zbool;
     split; [split; [discriminate | lia] | discriminate] |].
  replace (size v - idx <? len) with false by zbool.
  split; [split; [intros _; lia | reflexivity] |].
  intros _ Hxs; unfold set_mem; simpl.
  assert (Hfl : length (firstn (Z.to_nat len) xs) = Z.to_nat len)
    by (rewrite length_firstn; lia).
  split; [| do 5 (split; [reflexivity |])].
  - unfold content; simpl.
    rewrite read_write_inside by lia.
    rewrite Hfl; f_equal; [f_equal; lia | f_equal; f_equal; lia].
  - intros k Hk; apply nth_error_write_outside; lia.
Qed.

(** X6: [_vec2_impl_sort] with a comparison function always succeeds, replaces the content with what [qsort] makes of it, keeps all fields, and touches no slot outside the live range. *)
Theorem sort_semantics {A} (qsort : (A -> A -> Z) -> list A -> list A) (v : vec A) cmp el_size :
  (forall c l, length (qsort c l) = length l) ->
  vec_wf v -> el_size <> 0 ->
  let '(ok, v') := _vec2_impl_sort qsort v (Some cmp) el_size in
  ok = true /\ content v' = qsort cmp (content v) /\
  size v' = size v /\ capacity v' = capacity v /\ _start v' = _start v /\
  data v' = data v /\ _idx v' = _idx v /\
  (forall k, (k < Z.to_nat (_start v) \/ Z.to_nat (_start v + size v) <= k)%nat ->
             nth_error (mem v') k = nth_error (mem v) k).
Proof.
  intros Hq Hwf Hel.
  pose proof Hwf as (Hs0 & Hst & Hsc & Hcm & Hcw & Hnull).
  assert (HXl : length (content v) = Z.to_nat (size v)) by (apply length_content; exact Hwf).
  unfold _vec2_impl_sort; rewrite (wf_valid v Hwf).
  replace (el_size =? 0) with false by zbool; simpl.
  destruct (Z.eqb_spec (size v) 0) as [H0 | H0].
  - split; [reflexivity |]; split; [| repeat split; reflexivity].
    assert (E : content v = []) by (apply length_zero_iff_nil; lia).
    rewrite E; symmetry; apply length_zero_iff_nil; rewrite Hq; reflexivity.
  - unfold set_mem; simpl; split; [reflexivity |]; split; [| do 5 (split; [reflexivity |])].
    + unfold content at 1; simpl.
      rewrite read_write_inside by (rewrite ?Hq, ?HXl; lia).
      rewrite Nat.sub_diag, firstn_O, Hq, HXl, Nat.add_0_l, skipn_all2, app_nil_r
        by (rewrite length_read'; lia).
      reflexivity.
    + intros k Hk; apply nth_error_write_outside; rewrite Hq, HXl; lia.
Qed.

(** X7: the [vec2_assign] macro behaves as [_vec2_impl_assign] of one element, except that it also leaves [idx] in [_idx]. *)
Theorem vec2_assign_as_impl {A} (v : vec A) idx x el_size :
  vec_wf v -> el_size <> 0 -> 0 <= idx < WORD ->
  vec2_assign v idx x =
  let '(ok, v') := _vec2_impl_assign v idx (Some [x]) 1 el_size in (ok, set_idx v' idx).
Proof.
  intros Hwf Hel Hi.
  pose proof Hwf as (Hs0 & Hst & Hsc & Hcm & Hcw & Hnull).
  unfold vec2_assign, _vec2_impl_assign; rewrite (wf_valid v Hwf).
  replace (el_size =? 0) with false by zbool; simpl.
  destruct (Z_lt_ge_dec idx (size v)) as [Hgi | Hgi].
  - replace (idx <? size v) with true by zbool.
    replace (idx >=? size v) with false by zbool; simpl.
    rewrite (mod_word_small (size v - idx)) by lia.
    replace (size v - idx <? 1) with false by zbool; reflexivity.
  - replace (idx <? size v) with false by zbool.
    replace (idx >=? size v) with true by zbool; reflexivity.
Qed.

(** X8: the [vec2_insert] macro behaves as [_vec2_impl_insert] of one element, except that on success it also leaves [idx] in [_idx]. *)
Theorem vec2_insert_as_impl {A} (junk : A) realloc (v : vec A) idx x el_size :
  vec2_insert junk realloc v idx x el_size =
  match _vec2_impl_insert junk realloc v idx (Some [x]) 1 el_size with
  | Some (true, v') => Some (true, set_idx v' idx)
  | r => r
  end.
Proof.
  unfold vec2_insert, _vec2_impl_create_hole, _vec2_impl_insert; simpl.
  destruct (negb (_vec2_impl_valid v) || (el_size =? 0)) eqn:E;
    [rewrite orb_false_r, E; reflexivity |].
  rewrite orb_false_r, E.
  destruct (_vec2_create_hole junk realloc v idx 1 el_size) as [[[|] v'] |]; reflexivity.
Qed.

Lemma read_resize {A} (junk : A) (m : list A) s n N :
  (s + n <= length m)%nat -> (s + n <= N)%nat -> read (resize junk N m) s n = read m s n.
Proof.
  intros H1 H2; apply nth_error_ext; intros k.
  rewrite !nth_error_read, nth_error_resize; split_nat_tests; try reflexivity; lia.
Qed.

Lemma read_write_same {A} (m : list A) d ys :
  (d + length ys <= length m)%nat -> read (write m d ys) d (length ys) = ys.
Proof.
  intros H; rewrite read_write_inside by lia.
  rewrite Nat.sub_diag, firstn_O, Nat.add_0_l, skipn_all2, app_nil_r
    by (rewrite length_read'; lia).
  reflexivity.
Qed.

Lemma pop_multi_spec {A} (v : vec A) len el_size out :
  vec_wf v -> el_size <> 0 -> 0 <= len < WORD ->
  let X := content v in
  let '(ok, v', out') := vec2_pop_multi v len el_size out in
  (ok = true <-> len <= size v) /\
  (ok = false -> v' = v /\ out' = out) /\
  (ok = true ->
     v' = set_size v (size v - len) /\
     content v' = firstn (Z.to_nat (size v - len)) X /\
     out' = option_map (fun o => skipn (Z.to_nat (size v - len)) X ++ skipn (Z.to_nat len) o) out).
Proof.
  intros Hwf Hel Hl X.
  pose proof Hwf as (Hs0 & Hst & Hsc & Hcm & Hcw & Hnull).
  assert (HXl : length X = Z.to_nat (size v)) by (apply length_content; exact Hwf).
  unfold vec2_pop_multi, _vec2_impl_remove, _vec2_remove; rewrite (wf_valid v Hwf).
  replace (el_size =? 0) with false by zbool; simpl.
  destruct (Z_lt_ge_dec (size v) len) as [Hgt | Hle].
  { replace (len >? size v) with true by zbool; simpl.
    split; [split; [discriminate | lia] | split; [auto | discriminate]]. }
  replace (len >? size v) with false by zbool; simpl.
  rewrite !(mod_word_small (size v - len)) by lia.
  rewrite Z.ltb_irrefl.
  assert (Hread : read (mem v) (Z.to_nat (_start v + (size v - len))) (Z.to_nat len) =
                  read X (Z.to_nat (size v - len)) (Z.to_nat len)).
  { subst X; unfold content.
    apply nth_error_ext; intros k; rewrite !nth_error_read.
    split_nat_tests; try reflexivity; try (exfalso; lia); try (f_equal; lia).
    all: symmetry; apply nth_error_None; lia. }
  assert (Hout : forall o, read X (Z.to_nat (size v - len)) (Z.to_nat len) ++ o
                           = skipn (Z.to_nat (size v - len)) X ++ o).
  { intros o; f_equal; unfold read; apply firstn_all2; rewrite length_skipn; lia. }
  assert (Hfirst : firstn (Z.to_nat (size v - len)) X =
                   read (mem v) (Z.to_nat (_start v)) (Z.to_nat (size v - len))).
  { subst X; unfold content; rewrite firstn_as_read, read_read by lia.
    rewrite Nat.add_0_r; reflexivity. }
  destruct (Z.eqb_spec len 0) as [Hz | Hnz].
  { subst len; simpl; split; [split; [intros _; lia | reflexivity] |];
    split; [discriminate |]; intros _.
    rewrite Z.sub_0_r; split; [destruct v; reflexivity |].
    split; [rewrite firstn_all2 by lia; reflexivity |].
    destruct out as [o |]; simpl; [| reflexivity].
    rewrite skipn_all2 by lia; reflexivity. }
  replace (len =? 0) with false by zbool.
  unfold set_size; simpl.
  destruct (Z.eqb_spec (size v - len) 0) as [He | He];
    [| replace (size v - len =? 0) with false by zbool;
       replace (size v - len =? 0) with false by zbool;
       replace (size v - len <? size v - len) with false by zbool].
  all: split; [split; [intros _; lia | reflexivity] |];
    split; [discriminate |]; intros _.
  all: split; [reflexivity |]; split; [unfold content; simpl; rewrite Hfirst; reflexivity |].
  all: destruct out as [o |]; simpl; [rewrite Hread, Hout; reflexivity | reflexivity].
Qed.

(** X9: [vec2_pop_multi] succeeds exactly when [len <= size]; on failure nothing changes; on success only [size] drops by [len], the content keeps its first [size - len] elements, and the removed tail is copied to the front of [out]. *)
Theorem pop_multi_semantics {A} (v : vec A) len el_size out :
  vec_wf v -> el_size <> 0 -> 0 <= len < WORD ->
  let X := content v in
  let '(ok, v', out') := vec2_pop_multi v len el_size out in
  (ok = true <-> len <= size v) /\
  (ok = false -> v' = v /\ out' = out) /\
  (ok = true ->
     v' = set_size v (size v - len) /\
     content v' = firstn (Z.to_nat (size v - len)) X /\
     out' = option_map (fun o => skipn (Z.to_nat (size v - len)) X ++ skipn (Z.to_nat len) o) out).
Proof. exact (pop_multi_spec v len el_size out). Qed.

(** X10: [vec2_shift_multi] succeeds exactly when [len <= size]; on success the content loses its first [len] elements, which are copied to the front of [out], without moving any slot or changing the allocation. *)
Theorem shift_multi_semantics {A} (v : vec A) len el_size out :
  vec_wf v -> el_size <> 0 -> 0 <= len < WORD ->
  let X := content v in
  let '(ok, v', out') := vec2_shift_multi v len el_size out in
  (ok = true <-> len <= size v) /\
  (ok = false -> v' = v /\ out' = out) /\
  (ok = true ->
     content v' = skipn (Z.to_nat len) X /\ size v' = size v - len /\
     mem v' = mem v /\ capacity v' = capacity v /\
     vec2_mem v' el_size = vec2_mem v el_size /\
     out' = option_map (fun o => firstn (Z.to_nat len) X ++ skipn (Z.to_nat len) o) out).
Proof.
  intros Hwf Hel Hl X.
  pose proof Hwf as (Hs0 & Hst & Hsc & Hcm & Hcw & Hnull).
  assert (HXl : length X = Z.to_nat (size v)) by (apply length_content; exact Hwf).
  unfold vec2_shift_multi, _vec2_impl_remove, _vec2_remove; rewrite (wf_valid v Hwf).
  replace (el_size =? 0) with false by zbool; simpl.
  destruct (Z_lt_ge_dec (size v) len) as [Hgt | Hle].
  { replace (len >? size v) with true by zbool; simpl.
    split; [split; [discriminate | lia] | split; [auto | discriminate]]. }
  replace (len >? size v) with false by zbool; simpl.
  rewrite (mod_word_small (size v - len)) by lia.
  replace (size v - len <? 0) with false by zbool.
  assert (Hout : read (mem v) (Z.to_nat (_start v + 0)) (Z.to_nat len) = firstn (Z.to_nat len) X).
  { subst X; unfold content; rewrite firstn_as_read, read_read by lia; f_equal; lia. }
  assert (Hskip : skipn (Z.to_nat len) X =
                  read (mem v) (Z.to_nat (_start v + len)) (Z.to_nat (size v - len))).
  { rewrite (skipn_as_read X _ (Z.to_nat (size v - len))) by lia.
    subst X; unfold content; rewrite read_read by lia; f_equal; lia. }
  destruct (Z.eqb_spec len 0) as [Hz | Hnz].
  { subst len; simpl; split; [split; [intros _; lia | reflexivity] |];
    split; [discriminate |]; intros _.
    rewrite Z.sub_0_r; do 5 (split; [reflexivity |]).
    destruct out as [o |]; reflexivity. }
  replace (len =? 0) with false by zbool.
  unfold set_size, set_start_data, vec2_mem; simpl.
  destruct (Z.eqb_spec (size v - len) 0) as [He | He]; simpl.
  all: split; [split; [intros _; lia | reflexivity] |];
    split; [discriminate |]; intros _.
  all: split; [unfold content; simpl; rewrite Hskip |].
  - replace (Z.to_nat (size v - len)) with 0%nat by lia; rewrite !read_zero; reflexivity.
  - do 4 (split; [reflexivity |]); destruct out as [o |]; simpl; [rewrite Hout |]; reflexivity.
  - reflexivity.
  - do 3 (split; [reflexivity |]); split; [ring |].
    destruct out as [o |]; simpl; [rewrite Hout |]; reflexivity.
Qed.

(** X11: a successful [_vec2_impl_remove] keeps the vector well-formed and keeps its allocation: same capacity, same base address, same number of slots. *)
Theorem remove_keeps_layout {A} (v : vec A) idx len el_size out v' out' :
  vec_ok v el_size -> 0 < el_size -> 0 <= idx < WORD -> 0 <= len < WORD ->
  _vec2_impl_remove v idx len el_size out = (true, v', out') ->
  vec_ok v' el_size /\ capacity v' = capacity v /\ vec2_mem v' el_size = vec2_mem v el_size /\
  length (mem v') = length (mem v).
Proof.
  intros [Hwf Hbase] Hel Hi0 Hl0.
  pose proof Hwf as (Hs0 & Hst & Hsc & Hcm & Hcw & [Hn1 Hn2]).
  unfold _vec2_impl_remove, _vec2_remove; rewrite (wf_valid v Hwf).
  replace (el_size =? 0) with false by zbool; simpl.
  destruct (Z.gtb_spec len (size v)) as [Hgt | Hle]; simpl; [discriminate |].
  destruct (Z.ltb_spec ((size v - len) mod WORD) idx) as [Hi | Hi]; [discriminate |].
  destruct (Z.eqb_spec len 0) as [Hz | Hnz].
  { intros [= <- <-]; split; [split |]; auto. }
  unfold set_size, set_start_data, set_mem, vec2_mem in *; simpl.
  destruct (Z.eqb_spec (size v - len) 0) as [He | He];
    [| destruct (Z.eqb_spec idx 0) as [H0 | H0];
       [| destruct (Z.ltb_spec idx (size v - len))]];
    intros [= <- <-]; simpl.
  - unfold vec_ok, vec_wf, vec2_mem; cbn -[WORD]; repeat split; auto; lia.
  - assert (0 < capacity v) by lia.
    specialize (Hbase H).
    unfold vec_ok, vec_wf, vec2_mem; cbn -[WORD]; repeat split; try lia; try ring.
  - unfold vec_ok, vec_wf, vec2_mem, memmove; cbn -[WORD write read]; rewrite length_write.
    repeat split; auto; lia.
  - unfold vec_ok, vec_wf, vec2_mem; cbn -[WORD]; repeat split; auto; lia.
Qed.



(** X13: a successful [_vec2_impl_shrink] keeps the vector well-formed with the same content and size, never grows the capacity, frees an empty vector completely, and when it shrinks moves the content to the start of a buffer of capacity [size]. *)
Theorem shrink_semantics {A} (junk : A) realloc (v : vec A) el_size :
  vec_ok v el_size -> 0 < el_size ->
  let '(ok, v') := _vec2_impl_shrink junk realloc v el_size in
  ok = true ->
  vec_ok v' el_size /\ content v' = content v /\ size v' = size v /\
  capacity v' <= capacity v /\
  (size v = 0 -> v' = vec2_zero) /\
  (capacity v' < capacity v -> _start v' = 0 /\ capacity v' = size v).
Proof.
  intros [Hwf Hbase] Hel.
  pose proof Hwf as (Hs0 & Hst & Hsc & Hcm & Hcw & [Hn1 Hn2]).
  unfold _vec2_impl_shrink; rewrite (wf_valid v Hwf).
  replace (el_size =? 0) with false by zbool; simpl.
  destruct (Z.eqb_spec (size v) 0) as [H0 | H0].
  { intros _; unfold _vec2_clear, vec_ok, vec_wf, content, vec2_zero; cbn [size capacity _idx _start data mem].
    rewrite H0, !read_zero.
    repeat split; auto; try lia; unfold WORD; lia. }
  destruct ((size v <? capacity v) && (capacity v >? VEC2_INITIAL_CAPACITY)) eqn:Hb;
    [| intros _; repeat split; auto; lia].
  apply andb_prop in Hb; destruct Hb as [Hb1 Hb2].
  apply Z.ltb_lt in Hb1; apply Z.gtb_lt in Hb2.
  set (nc := if size v >? VEC2_INITIAL_CAPACITY then size v else VEC2_INITIAL_CAPACITY).
  assert (Hnc : size v <= nc /\ nc <= capacity v)
    by (subst nc; unfold VEC2_INITIAL_CAPACITY in *; destruct (Z.gtb_spec (size v) 8); lia).
  set (v1 := if _start v >? 0 then
               mkVec (size v) (capacity v) (_idx v) 0 (vec2_mem v el_size)
                     (memmove (mem v) 0 (_start v) (size v))
             else v).
  assert (Hv1 : size v1 = size v /\ _start v1 = 0 /\ _idx v1 = _idx v /\
                length (mem v1) = length (mem v) /\ content v1 = content v).
  { subst v1; destruct (Z.gtb_spec (_start v) 0) as [Hs | Hs].
    - unfold content, memmove; cbn [size capacity _idx _start data mem].
      rewrite length_write; repeat split; auto.
      rewrite <- (length_read (mem v) (Z.to_nat (_start v)) (Z.to_nat (size v))) at 2 by lia.
      rewrite read_write_same by (rewrite length_read; lia).
      reflexivity.
    - repeat split; auto; lia. }
  destruct Hv1 as (Hs1 & Hst1 & Hi1 & Hl1 & Hc1).
  destruct (realloc _ _) as [p |]; [| discriminate].
  intros _.
  unfold vec_ok, vec_wf, vec2_mem, content; cbn [size capacity _idx _start data mem].
  rewrite length_resize, Hs1, Hst1.
  rewrite read_resize by lia.
  pose proof (Pos2Z.is_pos p).
  repeat split; auto; try lia.
  rewrite <- Hst1, <- Hs1; unfold content in Hc1; rewrite Hc1, Hs1; reflexivity.
Qed.

Section ListMore.
Context {A : Type}.
Implicit Types m ys : list A.





End ListMore.




Section ListMore2.
Context {A : Type}.
Implicit Types m P Q : list A.




End ListMore2.







(** * Witnesses of the further properties at concrete inputs *)

Ltac concrete_vec :=
  unfold vec_ok, vec_wf, vec2_mem; vm_compute;
  repeat split; try discriminate; try (intros; reflexivity); intros H; discriminate H.

Lemma vec2_get_content_witness :
  vec2_get v123 1 = nth_error (content v123) (Z.to_nat 1).
Proof. apply vec2_get_content; [concrete_vec | lia]. Defined.

Lemma vec2_first_last_content_witness :
  vec2_first v123 = hd_error (content v123) /\ vec2_last v123 = hd_error (rev (content v123)).
Proof. apply vec2_first_last_content; concrete_vec. Defined.

Lemma swap_exchanges_witness :
  let '(ok, v') := _vec2_impl_swap 0 v123 0 2 4 in
  (ok = true <-> 0 < size v123 /\ 2 < size v123) /\
  (ok = true ->
     size v' = size v123 /\ capacity v' = capacity v123 /\ _start v' = _start v123 /\
     data v' = data v123 /\ _idx v' = _idx v123 /\
     (forall k, nth_error (mem v') k =
        nth_error (mem v123) (swap_pos (Z.to_nat (_start v123 + 0)) (Z.to_nat (_start v123 + 2)) k)) /\
     (forall k, nth_error (content v') k =
        nth_error (content v123) (swap_pos (Z.to_nat 0) (Z.to_nat 2) k))).
Proof. apply swap_exchanges; [concrete_vec | discriminate | lia | lia]. Defined.

Lemma swap_twice_restores_witness :
  let '(ok, v1) := _vec2_impl_swap 0 v123 0 2 4 in
  _vec2_impl_swap 0 v1 0 2 4 = (ok, v123).
Proof. apply swap_twice_restores; [concrete_vec | lia | lia]. Defined.

Lemma assign_semantics_witness :
  let X := content v123 in
  let '(ok, v') := _vec2_impl_assign v123 1 (Some [7; 8]) 2 4 in
  (ok = true <-> 1 < size v123 /\ 2 <= size v123 - 1) /\
  (ok = true -> (Z.to_nat 2 <= length [7%Z; 8%Z])%nat ->
     content v' = firstn (Z.to_nat 1) X ++ firstn (Z.to_nat 2) [7; 8]
                  ++ skipn (Z.to_nat (1 + 2)) X /\
     size v' = size v123 /\ capacity v' = capacity v123 /\ _start v' = _start v123 /\
     data v' = data v123 /\ _idx v' = _idx v123 /\
     (forall k, (k < Z.to_nat (_start v123 + 1) \/ Z.to_nat (_start v123 + 1 + 2) <= k)%nat ->
                nth_error (mem v') k = nth_error (mem v123) k)).
Proof. apply assign_semantics; [concrete_vec | discriminate | unfold WORD; lia | unfold WORD; lia]. Defined.

Lemma sort_semantics_witness :
  let '(ok, v') := _vec2_impl_sort (fun _ l => rev l) v123 (Some Z.sub) 4 in
  ok = true /\ content v' = rev (content v123) /\
  size v' = size v123 /\ capacity v' = capacity v123 /\ _start v' = _start v123 /\
  data v' = data v123 /\ _idx v' = _idx v123 /\
  (forall k, (k < Z.to_nat (_start v123) \/ Z.to_nat (_start v123 + size v123) <= k)%nat ->
             nth_error (mem v') k = nth_error (mem v123) k).
Proof.
  apply (sort_semantics (fun _ l => rev l) v123 Z.sub 4);
    [intros; apply length_rev | concrete_vec | discriminate].
Defined.

Lemma vec2_assign_as_impl_witness :
  vec2_assign v123 1 7 =
  let '(ok, v') := _vec2_impl_assign v123 1 (Some [7]) 1 4 in (ok, set_idx v' 1).
Proof. apply vec2_assign_as_impl; [concrete_vec | discriminate | unfold WORD; lia]. Defined.

Lemma pop_multi_semantics_witness :
  let X := content v123 in
  let '(ok, v', out') := vec2_pop_multi v123 2 4 (Some [0; 0]) in
  (ok = true <-> 2 <= size v123) /\
  (ok = false -> v' = v123 /\ out' = Some [0; 0]) /\
  (ok = true ->
     v' = set_size v123 (size v123 - 2) /\
     content v' = firstn (Z.to_nat (size v123 - 2)) X /\
     out' = option_map (fun o => skipn (Z.to_nat (size v123 - 2)) X ++ skipn (Z.to_nat 2) o)
              (Some [0; 0])).
Proof. apply pop_multi_semantics; [concrete_vec | discriminate | unfold WORD; lia]. Defined.

Lemma shift_multi_semantics_witness :
  let X := content v123 in
  let '(ok, v', out') := vec2_shift_multi v123 1 4 (Some [0]) in
  (ok = true <-> 1 <= size v123) /\
  (ok = false -> v' = v123 /\ out' = Some [0]) /\
  (ok = true ->
     content v' = skipn (Z.to_nat 1) X /\ size v' = size v123 - 1 /\
     mem v' = mem v123 /\ capacity v' = capacity v123 /\
     vec2_mem v' 4 = vec2_mem v123 4 /\
     out' = option_map (fun o => firstn (Z.to_nat 1) X ++ skipn (Z.to_nat 1) o) (Some [0])).
Proof. apply shift_multi_semantics; [concrete_vec | discriminate | unfold WORD; lia]. Defined.

Lemma remove_keeps_layout_witness :
  let v' := snd (fst (_vec2_impl_remove v123 1 1 4 None)) in
  vec_ok v' 4 /\ capacity v' = capacity v123 /\ vec2_mem v' 4 = vec2_mem v123 4 /\
  length (mem v') = length (mem v123).
Proof.
  apply (remove_keeps_layout v123 1 1 4 None _ None);
    [concrete_vec | lia | unfold WORD; lia | unfold WORD; lia | vm_compute; reflexivity].
Defined.


Lemma shrink_semantics_witness :
  let '(ok, v') := _vec2_impl_shrink 0 heap_ok v2_cap64 4 in
  ok = true ->
  vec_ok v' 4 /\ content v' = content v2_cap64 /\ size v' = size v2_cap64 /\
  capacity v' <= capacity v2_cap64 /\
  (size v2_cap64 = 0 -> v' = vec2_zero) /\
  (capacity v' < capacity v2_cap64 -> _start v' = 0 /\ capacity v' = size v2_cap64).
Proof. apply shrink_semantics; [concrete_vec | lia]. Defined.



